(** * FlashNet screen transmitter ([pc_sender.js])

    A shallow embedding of [flashnetSend]: the queue construction
    (sync preamble, start pulse, payload and checksum bits, end pulse) and
    the [setInterval] callback that drains the queue while toggling the
    background colour of a DOM element. *)

From stdpp Require Import gmap strings list.
From Stdlib Require Import ZArith Lia.

Local Open Scope Z_scope.

(** ** The fragment of JavaScript the sender uses *)

Module JS.

(** Numbers are modelled by [Z]: every number the sender handles is an
    integer (array elements documented as 0-255, their sum, masks).  The
    source's numbers are IEEE-754 doubles, so [+] on them is the integer
    sum only while the operands and the result lie between [- 2 ^ 53] and
    [2 ^ 53]; this is so for every running sum over an array of bytes.
    Statements about arrays of other numbers are made under [exact_sums],
    which keeps every running sum in that range. *)

(** ToInt32: the conversion applied to both operands of [&] and to the
    left operand of [>>]. *)
Definition ToInt32 (x : Z) : Z := (x + 2 ^ 31) mod 2 ^ 32 - 2 ^ 31.

(** [x & y] *)
Definition bitand (x y : Z) : Z := Z.land (ToInt32 x) (ToInt32 y).

(** [x >> n]: sign-propagating shift, the count taken modulo 32. *)
Definition sar (x n : Z) : Z := Z.shiftr (ToInt32 x) (n mod 32).

(** The two kinds of value the variable [state] holds: the number it is
    initialised with and the booleans produced by [!]. *)
Inductive value : Type :=
| VNum (n : Z)
| VBool (b : bool).

(** ToBoolean, as used by [?:], [!], [if] and the loop test. *)
Definition ToBoolean (v : value) : bool :=
  match v with
  | VNum n => negb (n =? 0)
  | VBool b => b
  end.

(** [!v] *)
Definition not (v : value) : value := VBool (negb (ToBoolean v)).

End JS.

(** ** Machine state *)

(** A DOM element, seen as a finite map from property paths to values. *)
Abbreviation Element := (gmap string string).

Definition backgroundColor : string := "style.backgroundColor".

(** Everything one call of [flashnetSend] can read or write: its three
    [let] variables (captured by [encode] and by the timer callback), the
    element it was handed, and the interval it registered.  [painted] is a
    history variable: the values assigned to [elem.style.backgroundColor],
    oldest first. *)
Record Machine : Type := mkMachine {
  state : JS.value;
  checksum : Z;
  queue : list Z;
  elem : Element;
  painted : list string;
  timer : option Z
}.

Definition set_state (v : JS.value) (m : Machine) : Machine :=
  mkMachine v (checksum m) (queue m) (elem m) (painted m) (timer m).
Definition set_checksum (c : Z) (m : Machine) : Machine :=
  mkMachine (state m) c (queue m) (elem m) (painted m) (timer m).
Definition set_queue (q : list Z) (m : Machine) : Machine :=
  mkMachine (state m) (checksum m) q (elem m) (painted m) (timer m).
Definition set_timer (t : option Z) (m : Machine) : Machine :=
  mkMachine (state m) (checksum m) (queue m) (elem m) (painted m) t.

(** [elem.style.backgroundColor = c] *)
Definition paint (c : string) (m : Machine) : Machine :=
  mkMachine (state m) (checksum m) (queue m)
            (<[backgroundColor := c]> (elem m)) (painted m ++ [c]) (timer m).

(** ** Computations *)

(** How a piece of code ends: normally, by a thrown exception (identified
    by its name), or not within the fuel granted to its loops. *)
Inductive completion (A : Type) : Type :=
| Normal (a : A)
| Throw (name : string)
| OutOfFuel.
Arguments Normal {A} a.
Arguments Throw {A} name.
Arguments OutOfFuel {A}.

Definition M (A : Type) : Type := Machine -> completion (A * Machine).

#[export] Instance M_ret : MRet M := fun A a m => Normal (a, m).
#[export] Instance M_bind : MBind M := fun A B f c m =>
  match c m with
  | Normal (a, m') => f a m'
  | Throw name => Throw name
  | OutOfFuel => OutOfFuel
  end.

Definition gets {A : Type} (f : Machine -> A) : M A := fun m => Normal (f m, m).
Definition modify (f : Machine -> Machine) : M unit := fun m => Normal (tt, f m).
Definition out_of_fuel {A : Type} : M A := fun _ => OutOfFuel.

(** Final machine of a computation, forgetting its result. *)
Definition exec {A : Type} (c : M A) (m : Machine) : completion Machine :=
  match c m with
  | Normal (_, m') => Normal m'
  | Throw name => Throw name
  | OutOfFuel => OutOfFuel
  end.

(** [queue.push(w)] *)
Definition push (w : Z) : M unit := modify (fun m => set_queue (queue m ++ [w]) m).

(** [data.forEach(f)] *)
Fixpoint forEach (f : Z -> M unit) (data : list Z) : M unit :=
  match data with
  | [] => mret tt
  | b :: rest => f b ;; forEach f rest
  end.

(** ** Queue construction *)

(** [for (let mask = ...; mask; mask >>= 1) queue.push((b & mask) ? 2 : 1)],
    entered with the current value of [mask]. *)
Fixpoint for_mask (fuel : nat) (mask b : Z) : M unit :=
  if JS.ToBoolean (JS.VNum mask) then
    match fuel with
    | O => out_of_fuel
    | S fuel' =>
        push (if JS.ToBoolean (JS.VNum (JS.bitand b mask)) then 2 else 1) ;;
        for_mask fuel' (JS.sar mask 1) b
    end
  else mret tt.

(** A 32-bit mask that is not negative is exhausted by at most 31 shifts. *)
Definition mask_fuel : nat := 32.

(** [encode(b)].  The sum [checksum + b] is the integer sum, that is the
    source's as long as it is exact in a double (see [JS]). *)
Definition encode (b : Z) : M unit :=
  modify (fun m => set_checksum (checksum m + b) m) ;;
  for_mask mask_fuel 0x80 b.

(** The [let] declarations that open the function body. *)
Definition init (elem : Element) : Machine :=
  {| state := JS.VNum 0;
     checksum := 0;
     queue := [1;1;1;1;1;1;1;1;1;1;1;1;1;1;3];
     elem := elem;
     painted := [];
     timer := None |}.

(** The body up to and including [queue.push(4)]. *)
Definition construct (data : list Z) : M unit :=
  forEach encode data ;;
  c ← gets checksum;
  encode (JS.bitand c 0xff) ;;
  push 4.

(** [setInterval(callback, pulsewidth)] *)
Definition setInterval (pulsewidth : Z) : M unit :=
  modify (set_timer (Some pulsewidth)).

(** [clearInterval(timer)] *)
Definition clearInterval : M unit := modify (set_timer None).

Definition flashnetSend (pulsewidth : Z) (data : list Z) (elem : Element)
  : completion Machine :=
  exec (construct data ;; setInterval pulsewidth) (init elem).

(** ** The timer callback *)

(** [state ? "#888" : "#eee"] *)
Definition light_colour (s : JS.value) : string :=
  if JS.ToBoolean s then "#888" else "#eee".

Definition callback : M unit :=
  q ← gets queue;
  match q with
  | [] =>
      modify (paint "#ccc") ;;
      clearInterval
  | w :: rest =>
      modify (set_queue (w - 1 :: rest)) ;;
      if w - 1 <=? 0 then
        modify (set_queue rest) ;;
        modify (fun m => set_state (JS.not (state m)) m) ;;
        s ← gets state;
        modify (paint (light_colour s))
      else mret tt
  end.

(** One period of the interval: the callback runs if, and only if, the
    interval is still registered. *)
Definition tick (m : Machine) : completion Machine :=
  match timer m with
  | Some _ => exec callback m
  | None => Normal m
  end.

Fixpoint ticks (n : nat) (m : Machine) : completion Machine :=
  match n with
  | O => Normal m
  | S n' =>
      match tick m with
      | Normal m' => ticks n' m'
      | Throw name => Throw name
      | OutOfFuel => OutOfFuel
      end
  end.

(** ** The frame, as the protocol describes it *)

Inductive PulseSymbol : Type := SYNC | START | BIT0 | BIT1 | END.

(** Canonical ratios. *)
Definition ratio (s : PulseSymbol) : Z :=
  match s with
  | SYNC => 1
  | BIT0 => 1
  | BIT1 => 2
  | START => 3
  | END => 4
  end.

(** The eight bits of a byte, most significant first. *)
Definition byte_symbols (b : Z) : list PulseSymbol :=
  map (fun i => if Z.testbit b i then BIT1 else BIT0) [7; 6; 5; 4; 3; 2; 1; 0].

Definition sum_bytes (payload : list Z) : Z := foldr Z.add 0 payload.

Definition frame (payload : list Z) : list PulseSymbol :=
  replicate 14 SYNC ++ [START] ++
  flat_map byte_symbols payload ++
  byte_symbols (sum_bytes payload mod 256) ++ [END].

(** Reading eight pulse widths back as a byte, most significant bit first;
    [None] if a width is neither that of a 0-bit nor that of a 1-bit. *)
Fixpoint byte_of_pulses (acc : Z) (ws : list Z) : option Z :=
  match ws with
  | [] => Some acc
  | w :: ws' =>
      if w =? 1 then byte_of_pulses (2 * acc) ws'
      else if w =? 2 then byte_of_pulses (2 * acc + 1) ws'
      else None
  end.

Definition is_byte (b : Z) : Prop := 0 <= b < 256.

Definition hello : list Z := [0x48; 0x65; 0x6C; 0x6C; 0x6F].

(** ** Auxiliary definitions for the proofs *)

(** The eight widths that encode one byte. *)
Definition byte_pulses (b : Z) : list Z := map ratio (byte_symbols b).

(** The widths pushed by the mask loop, as a function of its inputs. *)
Fixpoint mask_pulses (fuel : nat) (mask b : Z) : option (list Z) :=
  if JS.ToBoolean (JS.VNum mask) then
    match fuel with
    | O => None
    | S fuel' =>
        cons (if JS.ToBoolean (JS.VNum (JS.bitand b mask)) then 2 else 1)
          <$> mask_pulses fuel' (JS.sar mask 1) b
    end
  else Some [].

(** The widths [encode(b)] pushes, for an arbitrary number [b]. *)
Definition loop_pulses (b : Z) : list Z :=
  default [] (mask_pulses mask_fuel 0x80 b).

(** The queue [flashnetSend] builds, for arbitrary numbers. *)
Definition built_queue (data : list Z) : list Z :=
  [1;1;1;1;1;1;1;1;1;1;1;1;1;1;3] ++ flat_map loop_pulses data ++
  loop_pulses (sum_bytes data mod 256) ++ [4].

(** Ticks a queue still asks for: the sum of its widths. *)
Definition total_width (q : list Z) : Z := foldr Z.add 0 q.

(** Every queued width is at least one tick. *)
Definition wf_queue (q : list Z) : Prop := Forall (fun w => 1 <= w) q.

(** The machine once the head pulse is over: the head is shifted out, the
    light state flipped and the new colour written. *)
Definition pulse_done (rest : list Z) (m : Machine) : Machine :=
  paint (light_colour (JS.not (state m)))
        (set_state (JS.not (state m)) (set_queue rest m)).

(** The machine one period later, written as a function. *)
Definition after_tick (m : Machine) : Machine :=
  match timer m with
  | None => m
  | Some _ =>
      match queue m with
      | [] => set_timer None (paint "#ccc" m)
      | w :: rest =>
          if w - 1 <=? 0 then pulse_done rest m
          else set_queue (w - 1 :: rest) m
      end
  end.

(** Colour written at the [k]-th pulse boundary, counted from 1. *)
Definition boundary_colour (k : nat) : string :=
  if Nat.odd k then "#888" else "#eee".

(** The colours written at the first [k] pulse boundaries. *)
Definition alternation (k : nat) : list string :=
  map boundary_colour (seq 1 k).

(** What the callback writes when it stops the interval. *)
Definition closing (t : option Z) : list string :=
  match t with
  | Some _ => []
  | None => ["#ccc"]
  end.

(** Invariant of a transmission started with [L] queued pulses on an
    element whose colour was [c0]: [k] pulses are done, the light state has
    the parity of [k], and the history of writes is the alternation up to
    [k], closed by the neutral colour once the interval is cleared. *)
Definition sending (L : nat) (c0 : option string) (m : Machine) : Prop :=
  exists k : nat,
    (k + length (queue m))%nat = L /\
    JS.ToBoolean (state m) = Nat.odd k /\
    painted m = alternation k ++ closing (timer m) /\
    (timer m = None -> queue m = []) /\
    elem m !! backgroundColor =
      match last (painted m) with
      | Some c => Some c
      | None => c0
      end.

(** ** Further auxiliary definitions *)

(** Bit positions [k], [k - 1], ..., [0]. *)
Fixpoint bits_down (k : nat) : list Z :=
  match k with
  | O => [0]
  | S k' => Z.of_nat k :: bits_down k'
  end.

(** The low eight bits of a number, as a byte. *)
Definition low_byte (b : Z) : Z := b mod 256.

(** Sum of the magnitudes of the elements. *)
Definition abs_sum (data : list Z) : Z := foldr (fun b s => Z.abs b + s) 0 data.

(** Arrays on which the integer sums of the model are the sums the source
    computes in doubles: the length is one an array can have, and the
    magnitudes of the elements add up to at most [2 ^ 53 - 255].  Then every
    element, every sum of some of the elements in any order, and such a sum
    plus a checksum byte lies between [- 2 ^ 53] and [2 ^ 53], where double
    addition of integers is exact. *)
Definition exact_sums (data : list Z) : Prop :=
  Z.of_nat (length data) < 2 ^ 32 /\ abs_sum data + 255 <= 2 ^ 53.

(** What an observer of the element sees: its background colour after
    each of the next [n] ticks. *)
Fixpoint display (n : nat) (m : Machine) : list (option string) :=
  match n with
  | O => []
  | S n' =>
      match tick m with
      | Normal m' => elem m' !! backgroundColor :: display n' m'
      | Throw _ => []
      | OutOfFuel => []
      end
  end.

(** A colour shown for a number of consecutive ticks. *)
Definition shown_for (w : Z) (c : string) : list (option string) :=
  replicate (Z.to_nat w) (Some c).

(** The colours of [colours], each shown for the matching width of
    [widths]. *)
Fixpoint shown_runs (widths : list Z) (colours : list string)
  : list (option string) :=
  match widths, colours with
  | w :: widths', c :: colours' => shown_for w c ++ shown_runs widths' colours'
  | _, _ => []
  end.

(** Second invariant of a transmission on the element [e], started with
    checksum [c] and [L] queued pulses: the checksum stays put, the element
    is [e] with the last colour written, and the light state is a boolean
    as soon as a pulse has been shifted out. *)
Definition tracking (e : Element) (c : Z) (L : nat) (m : Machine) : Prop :=
  checksum m = c /\
  elem m =
    match last (painted m) with
    | Some col => <[backgroundColor := col]> e
    | None => e
    end /\
  ((length (queue m) < L)%nat -> exists b : bool, state m = JS.VBool b).

(** ** Sample machines *)

(** A machine in the middle of a transmission: a pulse of width 3 at the
    head of the queue, one more behind it. *)
Definition mid_pulse : Machine :=
  mkMachine (JS.VBool true) 0 [3; 1] ∅ ["#888"] (Some 80).

(** A machine whose queue has just drained. *)
Definition drained : Machine :=
  mkMachine (JS.VBool false) 0 [] (<[backgroundColor := "#eee"]> ∅)
            ["#888"; "#eee"] (Some 80).

(** ** Running the construction *)

(** Reads a field of an updated machine. *)
Ltac fields :=
  cbn [state checksum queue elem painted timer pulse_done
       set_state set_checksum set_queue set_timer paint closing].

Lemma set_queue_same (m : Machine) : set_queue (queue m) m = m.
Proof. by destruct m. Qed.

Lemma for_mask_run (fuel : nat) (mask b : Z) (m : Machine) :
  for_mask fuel mask b m =
  match mask_pulses fuel mask b with
  | Some ws => Normal (tt, set_queue (queue m ++ ws) m)
  | None => OutOfFuel
  end.
Proof.
  revert mask m; induction fuel as [|fuel IH]; intros mask m; simpl;
    destruct (negb (mask =? 0)); simpl.
  - reflexivity.
  - by rewrite app_nil_r, set_queue_same.
  - unfold mbind, M_bind, push, modify. rewrite IH.
    destruct (mask_pulses fuel (JS.sar mask 1) b) as [ws|]; simpl; [|done].
    by rewrite <- app_assoc.
  - by rewrite app_nil_r, set_queue_same.
Qed.

(** The loop ends within its fuel whatever number it is given. *)
Lemma mask_pulses_total (b : Z) :
  mask_pulses mask_fuel 0x80 b = Some (loop_pulses b).
Proof.
  unfold loop_pulses.
  assert (H : exists ws, mask_pulses mask_fuel 0x80 b = Some ws)
    by (eexists; reflexivity).
  destruct H as [ws ->]. reflexivity.
Qed.

Lemma mask_pulses_widths (fuel : nat) (mask b : Z) (ws : list Z) :
  mask_pulses fuel mask b = Some ws -> Forall (fun w => w = 1 \/ w = 2) ws.
Proof.
  revert mask ws; induction fuel as [|fuel IH]; intros mask ws; simpl;
    destruct (negb (mask =? 0)); try (intros [= <-]; constructor); try done.
  destruct (mask_pulses fuel (JS.sar mask 1) b) as [ws'|] eqn:E; [|done].
  simpl. intros [= <-]. constructor; [|by eapply IH].
  destruct (negb (JS.bitand b mask =? 0)); auto.
Qed.

Lemma loop_pulses_widths (b : Z) :
  Forall (fun w => w = 1 \/ w = 2) (loop_pulses b).
Proof. eapply mask_pulses_widths, mask_pulses_total. Qed.

Lemma loop_pulses_length (b : Z) : length (loop_pulses b) = 8%nat.
Proof.
  unfold loop_pulses.
  assert (H : exists ws, mask_pulses mask_fuel 0x80 b = Some ws /\
                         length ws = 8%nat)
    by (eexists; split; reflexivity).
  destruct H as (ws & -> & H). exact H.
Qed.

Lemma byte_range (b : Z) : is_byte b -> b ∈ seqZ 0 256.
Proof. unfold is_byte; intros H. apply elem_of_seqZ. lia. Qed.

(** On a byte the loop pushes the eight bits, most significant first. *)
Lemma loop_pulses_byte (b : Z) : is_byte b -> loop_pulses b = byte_pulses b.
Proof.
  intros Hb. apply byte_range in Hb. revert b Hb. apply Forall_forall.
  apply (bool_decide_unpack _). vm_compute. reflexivity.
Qed.

Lemma byte_of_byte_pulses (b : Z) :
  is_byte b -> byte_of_pulses 0 (byte_pulses b) = Some b.
Proof.
  intros Hb. apply byte_range in Hb. revert b Hb. apply Forall_forall.
  apply (bool_decide_unpack _). vm_compute. reflexivity.
Qed.

Lemma bitand_0xff (c : Z) : JS.bitand c 0xff = c mod 256.
Proof.
  unfold JS.bitand. change (JS.ToInt32 0xff) with (Z.ones 8).
  rewrite Z.land_ones by lia. unfold JS.ToInt32.
  change (2 ^ 8) with 256.
  rewrite (Z.mod_eq (c + 2 ^ 31) (2 ^ 32)) by lia.
  replace (c + 2 ^ 31 - 2 ^ 32 * ((c + 2 ^ 31) / 2 ^ 32) - 2 ^ 31)
    with (c + (- (2 ^ 24) * ((c + 2 ^ 31) / 2 ^ 32)) * 256) by lia.
  apply Z_mod_plus_full.
Qed.

Lemma mod_256_is_byte (c : Z) : is_byte (c mod 256).
Proof. unfold is_byte. apply Z.mod_pos_bound. lia. Qed.

Lemma encode_run (b : Z) (m : Machine) :
  encode b m =
  Normal (tt, mkMachine (state m) (checksum m + b) (queue m ++ loop_pulses b)
                        (elem m) (painted m) (timer m)).
Proof.
  unfold encode, mbind, M_bind, modify.
  rewrite for_mask_run, mask_pulses_total. reflexivity.
Qed.

Lemma forEach_encode_run (data : list Z) (m : Machine) :
  forEach encode data m =
  Normal (tt, mkMachine (state m) (checksum m + sum_bytes data)
                        (queue m ++ flat_map loop_pulses data)
                        (elem m) (painted m) (timer m)).
Proof.
  revert m. induction data as [|b data IH]; intros m.
  - simpl. rewrite Z.add_0_r, app_nil_r. by destruct m.
  - change (forEach encode (b :: data) m)
      with (mbind (fun _ => forEach encode data) (encode b) m).
    unfold mbind, M_bind. rewrite encode_run, IH.
    cbn [state checksum queue elem painted timer flat_map sum_bytes foldr].
    by rewrite Z.add_assoc, <- app_assoc.
Qed.

Lemma construct_run (data : list Z) (m : Machine) :
  construct data m =
  Normal (tt, mkMachine (state m)
                (checksum m + sum_bytes data +
                 (checksum m + sum_bytes data) mod 256)
                (queue m ++ flat_map loop_pulses data ++
                 loop_pulses ((checksum m + sum_bytes data) mod 256) ++ [4])
                (elem m) (painted m) (timer m)).
Proof.
  unfold construct, mbind, M_bind.
  rewrite forEach_encode_run. unfold gets.
  cbv beta iota. cbn [checksum].
  rewrite bitand_0xff, encode_run.
  unfold push, modify, set_queue.
  cbn [checksum queue state elem painted timer].
  by rewrite <- !app_assoc.
Qed.

Lemma flashnetSend_run (pulsewidth : Z) (data : list Z) (e : Element) :
  flashnetSend pulsewidth data e =
  Normal (mkMachine (JS.VNum 0)
                    (sum_bytes data + sum_bytes data mod 256)
                    (built_queue data) e [] (Some pulsewidth)).
Proof.
  unfold flashnetSend, exec, mbind, M_bind.
  rewrite construct_run. unfold init, built_queue.
  cbn [checksum queue state elem painted timer]. by rewrite Z.add_0_l.
Qed.

Lemma flat_map_loop_pulses_bytes (data : list Z) :
  Forall is_byte data ->
  flat_map loop_pulses data = flat_map byte_pulses data.
Proof.
  induction 1 as [|b data Hb _ IH]; [done|].
  cbn [flat_map]. by rewrite IH, loop_pulses_byte.
Qed.

Lemma map_ratio_byte_symbols (data : list Z) :
  map ratio (flat_map byte_symbols data) = flat_map byte_pulses data.
Proof.
  induction data as [|b data IH]; [done|].
  change (flat_map byte_symbols (b :: data))
    with (byte_symbols b ++ flat_map byte_symbols data).
  by rewrite map_app, IH.
Qed.

Lemma map_ratio_frame (data : list Z) :
  map ratio (frame data) =
  replicate 14 1 ++ [3] ++ flat_map byte_pulses data ++
  byte_pulses (sum_bytes data mod 256) ++ [4].
Proof.
  unfold frame. by rewrite !map_app, map_ratio_byte_symbols.
Qed.

(** On bytes the constructed queue is the frame of the protocol. *)
Lemma built_queue_frame (data : list Z) :
  Forall is_byte data -> built_queue data = map ratio (frame data).
Proof.
  intros Hdata. unfold built_queue, frame.
  rewrite !map_app, map_ratio_byte_symbols.
  rewrite flat_map_loop_pulses_bytes by done.
  by rewrite loop_pulses_byte by apply mod_256_is_byte.
Qed.

Lemma flat_map_loop_pulses_length (data : list Z) :
  length (flat_map loop_pulses data) = (8 * length data)%nat.
Proof.
  induction data as [|b data IH]; [done|].
  cbn [flat_map]. rewrite length_app, loop_pulses_length, IH. simpl. lia.
Qed.

Lemma built_queue_length (data : list Z) :
  length (built_queue data) = (8 * length data + 24)%nat.
Proof.
  unfold built_queue.
  rewrite !length_app, loop_pulses_length, flat_map_loop_pulses_length.
  simpl. lia.
Qed.

(** ** Running the timer *)

Lemma tick_after (m : Machine) : tick m = Normal (after_tick m).
Proof.
  unfold tick, after_tick, exec, callback, mbind, M_bind, gets.
  destruct (timer m) as [p|]; [|done].
  destruct (queue m) as [|w rest]; [done|].
  unfold modify. cbv beta iota.
  destruct (w - 1 <=? 0); reflexivity.
Qed.

Lemma ticks_succ (n : nat) (m : Machine) :
  ticks (S n) m = ticks n (after_tick m).
Proof. simpl. by rewrite tick_after. Qed.

Lemma ticks_after (n : nat) (m : Machine) :
  ticks n m = Normal (Nat.iter n after_tick m).
Proof.
  revert m; induction n as [|n IH]; intros m; [done|].
  rewrite ticks_succ, IH. f_equal.
  clear IH. induction n as [|n IH]; [done|]. simpl in *. by rewrite IH.
Qed.

Lemma after_tick_cleared (m : Machine) :
  timer m = None -> after_tick m = m.
Proof. unfold after_tick. by intros ->. Qed.

Lemma iter_after_tick_cleared (n : nat) (m : Machine) :
  timer m = None -> Nat.iter n after_tick m = m.
Proof.
  intros H. induction n as [|n IH]; [done|].
  simpl. rewrite IH. by apply after_tick_cleared.
Qed.

Lemma wf_queue_positive (q : list Z) :
  wf_queue q -> 0 <= total_width q /\ (total_width q = 0 -> q = []).
Proof.
  induction 1 as [|w q Hw _ [IH1 IH2]]; simpl; [done|].
  split; [lia|]. intros ?; lia.
Qed.

(** While pulses remain, a tick uses up exactly one unit of width and
    leaves the interval registered. *)
Lemma after_tick_live (m : Machine) (p : Z) :
  timer m = Some p -> wf_queue (queue m) -> queue m <> [] ->
  timer (after_tick m) = Some p /\
  wf_queue (queue (after_tick m)) /\
  total_width (queue (after_tick m)) = total_width (queue m) - 1.
Proof.
  unfold after_tick. intros Ht Hwf Hne. rewrite Ht.
  destruct (queue m) as [|w rest] eqn:E; [done|].
  apply Forall_cons in Hwf as [Hw Hrest].
  destruct (Z.leb_spec (w - 1) 0); simpl.
  - split; [done|]. split; [done|lia].
  - split; [done|]. split; [|lia]. apply Forall_cons. split; [lia|done].
Qed.

Lemma iter_after_tick_live (t : nat) (m : Machine) (p : Z) :
  timer m = Some p -> wf_queue (queue m) ->
  Z.of_nat t <= total_width (queue m) ->
  timer (Nat.iter t after_tick m) = Some p /\
  wf_queue (queue (Nat.iter t after_tick m)) /\
  total_width (queue (Nat.iter t after_tick m)) =
    total_width (queue m) - Z.of_nat t.
Proof.
  intros Ht Hwf. induction t as [|t IH]; intros Hle.
  - simpl. split; [done|]. split; [done|lia].
  - destruct IH as (IH1 & IH2 & IH3); [lia|].
    simpl Nat.iter.
    destruct (after_tick_live _ p IH1 IH2) as (H1 & H2 & H3).
    + intros E. rewrite E in IH3. simpl in IH3. lia.
    + split; [done|]. split; [done|lia].
Qed.

(** A tick with nothing queued clears the interval. *)
Lemma after_tick_empty (m : Machine) (p : Z) :
  timer m = Some p -> queue m = [] ->
  after_tick m = set_timer None (paint "#ccc" m).
Proof. unfold after_tick. by intros -> ->. Qed.

(** A tick writes no property of the element but its background colour. *)
Lemma after_tick_frame (m : Machine) (key : string) :
  key <> backgroundColor -> elem (after_tick m) !! key = elem m !! key.
Proof.
  intros Hkey. unfold after_tick.
  destruct (timer m); [|done].
  destruct (queue m) as [|w rest]; simpl.
  - by rewrite lookup_insert_ne.
  - destruct (w - 1 <=? 0); simpl; [|done]. by rewrite lookup_insert_ne.
Qed.

Lemma iter_after_tick_frame (t : nat) (m : Machine) (key : string) :
  key <> backgroundColor ->
  elem (Nat.iter t after_tick m) !! key = elem m !! key.
Proof.
  intros Hkey. induction t as [|t IH]; [done|].
  simpl. by rewrite after_tick_frame.
Qed.

(** ** The colour invariant *)

Lemma alternation_succ (k : nat) :
  alternation (S k) = alternation k ++ [boundary_colour (S k)].
Proof. unfold alternation. by rewrite seq_S, map_app. Qed.

Lemma light_colour_flip (s : JS.value) (k : nat) :
  JS.ToBoolean s = Nat.odd k ->
  JS.ToBoolean (JS.not s) = Nat.odd (S k) /\
  light_colour (JS.not s) = boundary_colour (S k).
Proof.
  intros H. unfold light_colour, boundary_colour. simpl JS.ToBoolean.
  by rewrite H, Nat.odd_succ, Nat.negb_odd.
Qed.

Lemma sending_start (c : Z) (q : list Z) (e : Element) (p : Z) :
  sending (length q) (e !! backgroundColor)
          (mkMachine (JS.VNum 0) c q e [] (Some p)).
Proof.
  exists 0%nat. simpl.
  split; [done|]. split; [done|]. split; [done|]. split; [|done].
  intros [=].
Qed.

Lemma sending_after_tick (L : nat) (c0 : option string) (m : Machine) :
  sending L c0 m -> sending L c0 (after_tick m).
Proof.
  intros (k & Hlen & Hstate & Hpainted & Hdone & Helem).
  unfold after_tick.
  destruct (timer m) as [p|] eqn:Ht;
    [|exists k; rewrite Ht; by repeat (split; [assumption|])].
  cbn [closing] in Hpainted. rewrite app_nil_r in Hpainted.
  destruct (queue m) as [|w rest] eqn:Hq.
  - exists k. fields. rewrite Hq, Hpainted, last_snoc, lookup_insert_eq.
    by repeat (split; [assumption|]).
  - destruct (w - 1 <=? 0).
    + destruct (light_colour_flip _ _ Hstate) as [Hs Hc].
      exists (S k). fields. rewrite Ht, Hpainted, Hc, last_snoc.
      rewrite lookup_insert_eq, alternation_succ, app_nil_r.
      cbn [length] in Hlen.
      split; [lia|]. split; [done|]. split; [done|]. split; [|done].
      intros [=].
    + exists k. fields. rewrite Ht, app_nil_r.
      split; [done|]. split; [done|]. split; [done|]. split; [|done].
      intros [=].
Qed.

Lemma sending_iter (t : nat) (L : nat) (c0 : option string) (m : Machine) :
  sending L c0 m -> sending L c0 (Nat.iter t after_tick m).
Proof.
  intros H. induction t as [|t IH]; [done|].
  simpl. by apply sending_after_tick.
Qed.

Lemma alternation_colours (k : nat) (c : string) :
  c ∈ alternation k -> c = "#888" \/ c = "#eee".
Proof.
  unfold alternation. intros (i & -> & _)%list_elem_of_fmap.
  unfold boundary_colour. destruct (Nat.odd i); auto.
Qed.

(** ** A pulse of width [w] *)

Lemma total_width_app (q1 q2 : list Z) :
  total_width (q1 ++ q2) = total_width q1 + total_width q2.
Proof. induction q1 as [|w q1 IH]; simpl; lia. Qed.

Lemma hold_ticks (m : Machine) (p w : Z) (rest : list Z) (t : nat) :
  timer m = Some p -> queue m = w :: rest -> Z.of_nat t < w ->
  Nat.iter t after_tick m = set_queue (w - Z.of_nat t :: rest) m.
Proof.
  intros Ht Hq. induction t as [|t IH]; intros Hlt.
  - simpl. by rewrite Z.sub_0_r, <- Hq, set_queue_same.
  - simpl Nat.iter. rewrite IH by lia. unfold after_tick. fields. rewrite Ht.
    destruct (Z.leb_spec (w - Z.of_nat t - 1) 0); [lia|].
    unfold set_queue. fields. do 2 f_equal. lia.
Qed.

Lemma pop_tick (m : Machine) (p w : Z) (rest : list Z) :
  timer m = Some p -> queue m = w :: rest -> 1 <= w ->
  Nat.iter (Z.to_nat w) after_tick m = pulse_done rest m.
Proof.
  intros Ht Hq Hw.
  replace (Z.to_nat w) with (S (Z.to_nat (w - 1))) by lia.
  simpl Nat.iter. rewrite (hold_ticks m p w rest) by (done || lia).
  unfold after_tick. fields. rewrite Ht.
  destruct (Z.leb_spec (w - Z.of_nat (Z.to_nat (w - 1)) - 1) 0); [done|lia].
Qed.

Lemma wf_built_queue (data : list Z) : wf_queue (built_queue data).
Proof.
  assert (Hloop : forall b, wf_queue (loop_pulses b)).
  { intros b. eapply Forall_impl; [apply loop_pulses_widths|].
    simpl. intros w [-> | ->]; lia. }
  unfold built_queue, wf_queue. rewrite !Forall_app. split; [|split; [|split]].
  - repeat (constructor; [lia|]). constructor.
  - induction data as [|b data IH]; [constructor|].
    cbn [flat_map]. apply Forall_app. split; [apply Hloop|done].
  - apply Hloop.
  - repeat constructor. lia.
Qed.

(** * The claims *)

(** C1.  For every payload of at most 70 bytes, the queue [flashnetSend]
    builds is the frame of the protocol, each symbol at its canonical
    ratio: 14 SYNC pulses of width 1, one START pulse of width 3, the
    eight bits of every payload byte in order, most significant first
    (width 1 for a 0-bit, width 2 for a 1-bit), the eight bits of the
    checksum byte in the same encoding, and one END pulse of width 4. *)
Theorem flashnetSend_queue_is_frame
    (pulsewidth : Z) (payload : list Z) (e : Element) :
  Forall is_byte payload -> (length payload <= 70)%nat ->
  exists m : Machine,
    flashnetSend pulsewidth payload e = Normal m /\
    queue m = map ratio (frame payload) /\
    queue m =
      replicate 14 1 ++ [3] ++
      flat_map (fun b => map (fun i => if Z.testbit b i then 2 else 1)
                             [7; 6; 5; 4; 3; 2; 1; 0]) payload ++
      map (fun i => if Z.testbit (sum_bytes payload mod 256) i then 2 else 1)
          [7; 6; 5; 4; 3; 2; 1; 0] ++ [4] /\
    (ratio SYNC, ratio BIT0, ratio BIT1, ratio START, ratio END) =
      (1, 1, 2, 3, 4).
Proof.
  intros Hbytes _. eexists. split; [apply flashnetSend_run|]. fields.
  assert (Hbits : forall b, byte_pulses b =
            map (fun i => if Z.testbit b i then 2 else 1)
                [7; 6; 5; 4; 3; 2; 1; 0]).
  { intros b. unfold byte_pulses, byte_symbols. rewrite map_map.
    apply map_ext. intros i. by destruct (Z.testbit b i). }
  split; [by apply built_queue_frame|]. split; [|done].
  rewrite (built_queue_frame payload Hbytes), map_ratio_frame, Hbits.
  do 2 f_equal. f_equal.
  induction payload as [|b payload IH]; [done|].
  cbn [flat_map]. rewrite Hbits. f_equal. apply IH. by inversion Hbytes.
Qed.

Lemma hello_is_bytes : Forall is_byte hello.
Proof. repeat (constructor; [unfold is_byte; lia|]). constructor. Defined.

Lemma flashnetSend_queue_is_frame_witness :
  Forall is_byte hello /\ (length hello <= 70)%nat /\
  exists m : Machine,
    flashnetSend 80 hello ∅ = Normal m /\
    queue m = map ratio (frame hello) /\
    queue m =
      replicate 14 1 ++ [3] ++
      flat_map (fun b => map (fun i => if Z.testbit b i then 2 else 1)
                             [7; 6; 5; 4; 3; 2; 1; 0]) hello ++
      map (fun i => if Z.testbit (sum_bytes hello mod 256) i then 2 else 1)
          [7; 6; 5; 4; 3; 2; 1; 0] ++ [4] /\
    (ratio SYNC, ratio BIT0, ratio BIT1, ratio START, ratio END) =
      (1, 1, 2, 3, 4).
Proof.
  split; [exact hello_is_bytes|]. split; [simpl; lia|].
  apply (flashnetSend_queue_is_frame 80 hello ∅); [exact hello_is_bytes|].
  simpl; lia.
Defined.

(** C2.  For every payload of bytes, the byte queued last before the END
    pulse is the sum of the payload modulo 256; and [checksum & 0xff],
    evaluated once every payload byte has been accumulated, is that same
    value. *)
Theorem checksum_byte_is_sum_mod_256
    (pulsewidth : Z) (payload : list Z) (e : Element) :
  Forall is_byte payload ->
  (exists m1 : Machine,
     exec (forEach encode payload) (init e) = Normal m1 /\
     JS.bitand (checksum m1) 0xff = sum_bytes payload mod 256) /\
  (exists (m : Machine) (sent bits : list Z),
     flashnetSend pulsewidth payload e = Normal m /\
     queue m = sent ++ bits ++ [4] /\
     length bits = 8%nat /\
     byte_of_pulses 0 bits = Some (sum_bytes payload mod 256)).
Proof.
  intros Hbytes. split.
  - eexists. unfold exec. rewrite forEach_encode_run. split; [done|].
    fields. by rewrite bitand_0xff.
  - eexists _, _, (byte_pulses (sum_bytes payload mod 256)).
    split; [apply flashnetSend_run|]. fields.
    rewrite (built_queue_frame payload Hbytes), map_ratio_frame.
    split; [by rewrite !app_assoc|]. split; [done|].
    apply byte_of_byte_pulses, mod_256_is_byte.
Qed.

Lemma checksum_byte_is_sum_mod_256_witness :
  Forall is_byte hello /\
  (exists m1 : Machine,
     exec (forEach encode hello) (init ∅) = Normal m1 /\
     JS.bitand (checksum m1) 0xff = sum_bytes hello mod 256) /\
  (exists (m : Machine) (sent bits : list Z),
     flashnetSend 80 hello ∅ = Normal m /\
     queue m = sent ++ bits ++ [4] /\
     length bits = 8%nat /\
     byte_of_pulses 0 bits = Some (sum_bytes hello mod 256)).
Proof.
  split; [exact hello_is_bytes|].
  apply (checksum_byte_is_sum_mod_256 80 hello ∅). exact hello_is_bytes.
Defined.

(** C3 (as amended).  [flashnetSend] checks no length: a payload of any
    length, 70 or 71 or more, is encoded in full.  The call ends normally
    with a queue of [8 * length + 24] pulses, which for a payload of bytes
    is the complete frame of the protocol (preamble, start pulse, the bits
    of every byte, the bits of the checksum byte, end pulse), and the
    construction writes nothing to the output element. *)
Theorem flashnetSend_accepts_any_length
    (pulsewidth : Z) (data : list Z) (e : Element) :
  exists m : Machine,
    flashnetSend pulsewidth data e = Normal m /\
    length (queue m) = (8 * length data + 24)%nat /\
    (Forall is_byte data -> queue m = map ratio (frame data)) /\
    elem m = e /\ painted m = [].
Proof.
  eexists. split; [apply flashnetSend_run|]. fields.
  split; [apply built_queue_length|].
  split; [apply built_queue_frame|done].
Qed.

(** C3, refuted as stated: a payload of 71 bytes is not rejected with
    [PayloadTooLarge]; all 592 pulses of its frame are queued. *)
Lemma payload_of_71_bytes_is_encoded :
  flashnetSend 80 (replicate 71 0) ∅ <> Throw "PayloadTooLarge" /\
  exists m : Machine,
    flashnetSend 80 (replicate 71 0) ∅ = Normal m /\
    length (queue m) = 592%nat /\ timer m = Some 80.
Proof.
  rewrite flashnetSend_run. split; [discriminate|].
  eexists. split; [reflexivity|]. fields.
  split; [|done]. by rewrite built_queue_length.
Qed.

(** C4.  For the payload 0x48 0x65 0x6C 0x6C 0x6F the checksum byte is
    0xF4, that is 500 mod 256, and the queue holds 14 SYNC pulses, one
    START pulse, the bits of 0x48 0x65 0x6C 0x6C 0x6F 0xF4 most
    significant first as BIT0/BIT1 pulses, and one END pulse. *)
Theorem hello_frame (pulsewidth : Z) (e : Element) :
  sum_bytes hello = 500 /\
  (exists m1 : Machine,
     exec (forEach encode hello) (init e) = Normal m1 /\
     JS.bitand (checksum m1) 0xff = 0xF4) /\
  exists m : Machine,
    flashnetSend pulsewidth hello e = Normal m /\
    queue m =
      map ratio
        (replicate 14 SYNC ++ [START] ++
         flat_map byte_symbols [0x48; 0x65; 0x6C; 0x6C; 0x6F; 0xF4] ++
         [END]) /\
    queue m =
      [1;1;1;1;1;1;1;1;1;1;1;1;1;1; 3;
       1;2;1;1;2;1;1;1;  1;2;2;1;1;2;1;2;  1;2;2;1;2;2;1;1;
       1;2;2;1;2;2;1;1;  1;2;2;1;2;2;2;2;  2;2;2;2;1;2;1;1;
       4].
Proof.
  split; [reflexivity|]. split.
  - eexists. unfold exec. rewrite forEach_encode_run. split; reflexivity.
  - eexists. split; [apply flashnetSend_run|]. fields.
    split; vm_compute; reflexivity.
Qed.

(** C5.  On a tick with a non-empty queue the head count is decremented.
    If it has reached zero the head is shifted out, the light state is
    flipped and the new state is written to the element; otherwise only
    the head count changes, the light state and the element being held.
    Hence a pulse queued with width [w >= 1] holds the light state for
    exactly [w] ticks: nothing but the head count changes during the first
    [w - 1] ticks, and tick number [w] flips the state. *)
Theorem tick_holds_pulse_for_its_width
    (m : Machine) (p w : Z) (rest : list Z) :
  timer m = Some p -> queue m = w :: rest ->
  (w - 1 <= 0 ->
   tick m = Normal (pulse_done rest m) /\
   queue (pulse_done rest m) = rest /\
   state (pulse_done rest m) = JS.not (state m) /\
   elem (pulse_done rest m) !! backgroundColor =
     Some (light_colour (JS.not (state m)))) /\
  (0 < w - 1 -> tick m = Normal (set_queue (w - 1 :: rest) m)) /\
  (1 <= w ->
   (forall t : nat, Z.of_nat t < w ->
      ticks t m = Normal (set_queue (w - Z.of_nat t :: rest) m)) /\
   ticks (Z.to_nat w) m = Normal (pulse_done rest m)).
Proof.
  intros Ht Hq. split; [|split].
  - intros Hw. rewrite tick_after. unfold after_tick. rewrite Ht, Hq.
    destruct (Z.leb_spec (w - 1) 0); [|lia]. fields.
    by rewrite lookup_insert_eq.
  - intros Hw. rewrite tick_after. unfold after_tick. rewrite Ht, Hq.
    by destruct (Z.leb_spec (w - 1) 0); [lia|].
  - intros Hw. split.
    + intros t Hlt. by rewrite ticks_after, (hold_ticks m p w rest).
    + by rewrite ticks_after, (pop_tick m p w rest).
Qed.

Lemma tick_holds_pulse_for_its_width_witness :
  ticks 1 mid_pulse = Normal (set_queue [2; 1] mid_pulse) /\
  ticks 2 mid_pulse = Normal (set_queue [1; 1] mid_pulse) /\
  ticks 3 mid_pulse =
    Normal (mkMachine (JS.VBool false) 0 [1]
                      (<[backgroundColor := "#eee"]> ∅) ["#888"; "#eee"]
                      (Some 80)).
Proof.
  destruct (tick_holds_pulse_for_its_width mid_pulse 80 3 [1]
              eq_refl eq_refl) as (_ & _ & H).
  destruct H as [Hhold Hpop]; [lia|].
  split; [exact (Hhold 1%nat ltac:(lia))|].
  split; [exact (Hhold 2%nat ltac:(lia))|exact Hpop].
Defined.

(** C6.  The interval stops by queue exhaustion and by nothing else.  On
    a tick with an empty queue the element is set to the neutral colour
    and the interval is cleared, after which no tick changes anything; on
    a tick with a non-empty queue the interval stays registered. *)
Theorem interval_stops_only_on_empty_queue (m : Machine) (p : Z) :
  timer m = Some p ->
  (queue m = [] ->
   exists m' : Machine,
     tick m = Normal m' /\
     elem m' !! backgroundColor = Some "#ccc" /\
     painted m' = painted m ++ ["#ccc"] /\
     timer m' = None /\
     forall n : nat, ticks n m' = Normal m') /\
  (queue m <> [] ->
   exists m' : Machine, tick m = Normal m' /\ timer m' = Some p) /\
  (forall m' : Machine,
     tick m = Normal m' -> timer m' = None -> queue m = []).
Proof.
  intros Ht. split; [|split].
  - intros Hq. eexists. split; [apply tick_after|].
    rewrite (after_tick_empty m p Ht Hq). fields.
    split; [by rewrite lookup_insert_eq|]. split; [done|]. split; [done|].
    intros n. rewrite ticks_after. f_equal.
    by apply iter_after_tick_cleared.
  - intros Hq. eexists. split; [apply tick_after|].
    unfold after_tick. rewrite Ht.
    destruct (queue m) as [|w rest]; [done|].
    by destruct (w - 1 <=? 0).
  - intros m'. rewrite tick_after. intros [= <-].
    unfold after_tick. rewrite Ht.
    destruct (queue m) as [|w rest]; [done|].
    destruct (w - 1 <=? 0); fields; congruence.
Qed.

Lemma interval_stops_only_on_empty_queue_witness :
  exists m' : Machine,
    tick drained = Normal m' /\
    elem m' !! backgroundColor = Some "#ccc" /\
    painted m' = ["#888"; "#eee"; "#ccc"] /\
    timer m' = None /\
    forall n : nat, ticks n m' = Normal m'.
Proof.
  destruct (interval_stops_only_on_empty_queue drained 80 eq_refl)
    as (H & _ & _).
  exact (H eq_refl).
Defined.

(** C7.  The construction is deterministic and pure.  Two calls with the
    same payload build the same queue and the same checksum whatever the
    pulse width and the element they are given, and the construction,
    started from any machine, changes nothing but the queue and the
    checksum: the element, the history of writes to it, the interval and
    the light state are as before. *)
Theorem construction_is_deterministic_and_pure
    (data : list Z) (pulsewidth1 pulsewidth2 : Z) (e1 e2 : Element)
    (m : Machine) :
  (exists (q : list Z) (c : Z),
     flashnetSend pulsewidth1 data e1 =
       Normal (mkMachine (JS.VNum 0) c q e1 [] (Some pulsewidth1)) /\
     flashnetSend pulsewidth2 data e2 =
       Normal (mkMachine (JS.VNum 0) c q e2 [] (Some pulsewidth2))) /\
  (exists m' : Machine,
     construct data m = Normal (tt, m') /\
     elem m' = elem m /\ painted m' = painted m /\
     timer m' = timer m /\ state m' = state m).
Proof.
  split.
  - eexists _, _. split; apply flashnetSend_run.
  - eexists. split; [apply construct_run|]. by fields.
Qed.

(** C8.  Throughout a transmission the colours written to the element
    alternate between "#888" and "#eee" from one pulse boundary to the
    next: after [t] ticks, with [k] pulses shifted out of the queue, the
    writes so far are the colours of boundaries 1 to [k], "#888" at the odd
    ones and "#eee" at the even ones, followed by "#ccc" exactly when the
    interval has been cleared, which happens with an empty queue only.  No
    other value is written, and the element shows the last one written. *)
Theorem colours_alternate
    (pulsewidth : Z) (data : list Z) (e : Element) (t : nat) :
  exists (m0 m : Machine) (k : nat),
    flashnetSend pulsewidth data e = Normal m0 /\
    ticks t m0 = Normal m /\
    (k + length (queue m))%nat = length (queue m0) /\
    painted m =
      map (fun i => if Nat.odd i then "#888" else "#eee") (seq 1 k) ++
      match timer m with Some _ => [] | None => ["#ccc"] end /\
    (forall c : string,
       c ∈ painted m -> c = "#888" \/ c = "#eee" \/ c = "#ccc") /\
    ("#ccc" ∈ painted m <-> timer m = None) /\
    (timer m = None -> queue m = []) /\
    elem m !! backgroundColor =
      match last (painted m) with
      | Some c => Some c
      | None => e !! backgroundColor
      end.
Proof.
  pose proof (sending_start (sum_bytes data + sum_bytes data mod 256)
                (built_queue data) e pulsewidth) as Hinv.
  apply (sending_iter t) in Hinv.
  destruct Hinv as (k & Hlen & _ & Hpainted & Hdone & Helem).
  eexists _, _, k. split; [apply flashnetSend_run|].
  split; [apply ticks_after|]. fields.
  split; [exact Hlen|]. split; [exact Hpainted|].
  split; [|split; [|split; [exact Hdone|exact Helem]]].
  - intros c. rewrite Hpainted, elem_of_app.
    intros [Hc | Hc]; [apply alternation_colours in Hc; tauto|].
    destruct (timer _); [by apply elem_of_nil in Hc|].
    apply list_elem_of_singleton in Hc. auto.
  - rewrite Hpainted, elem_of_app. split.
    + intros [Hc | Hc]; [by apply alternation_colours in Hc as [? | ?]|].
      destruct (timer _); [by apply elem_of_nil in Hc|done].
    + intros ->. right. apply list_elem_of_singleton. done.
Qed.

(** C9.  For every payload of [n] bytes the queue holds [8 * n + 24]
    pulses before the first tick, and the transmission ends after exactly
    [S + 1] ticks, [S] being the sum of the queued widths, that is
    14 + 3 + 4 plus the widths of the [8 * (n + 1)] payload and checksum
    bits: the interval is still registered after each of the first [S]
    ticks and is cleared, the queue empty, by tick [S + 1]. *)
Theorem transmission_takes_S_plus_1_ticks
    (pulsewidth : Z) (payload : list Z) (e : Element) :
  Forall is_byte payload ->
  exists m0 : Machine,
    flashnetSend pulsewidth payload e = Normal m0 /\
    length (queue m0) = (8 * length payload + 24)%nat /\
    total_width (queue m0) =
      14 + 3 + 4 +
      total_width
        (flat_map byte_pulses (payload ++ [sum_bytes payload mod 256])) /\
    length (flat_map byte_pulses (payload ++ [sum_bytes payload mod 256])) =
      (8 * (length payload + 1))%nat /\
    (forall t : nat,
       Z.of_nat t <= total_width (queue m0) ->
       exists m : Machine,
         ticks t m0 = Normal m /\ timer m = Some pulsewidth) /\
    (exists m : Machine,
       ticks (S (Z.to_nat (total_width (queue m0)))) m0 = Normal m /\
       timer m = None /\ queue m = []).
Proof.
  intros Hbytes. eexists. split; [apply flashnetSend_run|]. fields.
  pose proof (wf_built_queue payload) as Hwf.
  pose proof (fun t =>
    iter_after_tick_live t
      (mkMachine (JS.VNum 0) (sum_bytes payload + sum_bytes payload mod 256)
                 (built_queue payload) e [] (Some pulsewidth))
      pulsewidth eq_refl Hwf) as Hlive.
  cbn [queue] in Hlive.
  split; [apply built_queue_length|]. split; [|split; [|split]].
  - rewrite (built_queue_frame payload Hbytes), map_ratio_frame.
    rewrite flat_map_app, !total_width_app.
    change (flat_map byte_pulses [sum_bytes payload mod 256])
      with (byte_pulses (sum_bytes payload mod 256) ++ []).
    rewrite app_nil_r. change (total_width (replicate 14 1)) with 14.
    change (total_width [3]) with 3. change (total_width [4]) with 4. lia.
  - rewrite <- (flat_map_loop_pulses_bytes (payload ++ _)).
    + rewrite flat_map_loop_pulses_length, length_app. simpl. lia.
    + apply Forall_app. split; [done|].
      constructor; [apply mod_256_is_byte|constructor].
  - intros t Hle. eexists. split; [apply ticks_after|].
    by destruct (Hlive t Hle) as (H & _).
  - eexists. split; [apply ticks_after|].
    destruct (wf_queue_positive _ Hwf) as [Hpos _].
    destruct (Hlive (Z.to_nat (total_width (built_queue payload))))
      as (Ht & Hwf' & Hsum); [lia|].
    destruct (wf_queue_positive _ Hwf') as [_ Hnil].
    fields. rewrite Nat.iter_succ, (after_tick_empty _ pulsewidth Ht);
      fields; [|apply Hnil; lia].
    split; [done|]. apply Hnil. lia.
Qed.

Lemma transmission_takes_S_plus_1_ticks_witness :
  Forall is_byte hello /\
  exists m0 : Machine,
    flashnetSend 80 hello ∅ = Normal m0 /\
    length (queue m0) = (8 * length hello + 24)%nat /\
    total_width (queue m0) =
      14 + 3 + 4 +
      total_width
        (flat_map byte_pulses (hello ++ [sum_bytes hello mod 256])) /\
    length (flat_map byte_pulses (hello ++ [sum_bytes hello mod 256])) =
      (8 * (length hello + 1))%nat /\
    (forall t : nat,
       Z.of_nat t <= total_width (queue m0) ->
       exists m : Machine, ticks t m0 = Normal m /\ timer m = Some 80) /\
    (exists m : Machine,
       ticks (S (Z.to_nat (total_width (queue m0)))) m0 = Normal m /\
       timer m = None /\ queue m = []).
Proof.
  split; [exact hello_is_bytes|].
  apply (transmission_takes_S_plus_1_ticks 80 hello ∅). exact hello_is_bytes.
Defined.

(** C10.  The call itself leaves the element as it was: when
    [flashnetSend] returns, before any tick, the element is the one passed
    in and no colour has been written.  Every write happens in the timer
    callback, and after any number of ticks every property of the element
    other than [style.backgroundColor] still has the value it had before
    the call. *)
Theorem flashnetSend_leaves_element_untouched
    (pulsewidth : Z) (data : list Z) (e : Element) :
  exists m0 : Machine,
    flashnetSend pulsewidth data e = Normal m0 /\
    elem m0 = e /\ painted m0 = [] /\
    forall t : nat,
    exists m : Machine,
      ticks t m0 = Normal m /\
      forall key : string,
        key <> backgroundColor -> elem m !! key = e !! key.
Proof.
  eexists. split; [apply flashnetSend_run|]. fields.
  split; [done|]. split; [done|].
  intros t. eexists. split; [apply ticks_after|].
  intros key Hkey. by rewrite iter_after_tick_frame.
Qed.

(** * Beyond the claims *)

(** ** Numbers that are not bytes *)

Lemma ToInt32_testbit (b k : Z) :
  0 <= k < 32 -> Z.testbit (JS.ToInt32 b) k = Z.testbit b k.
Proof.
  intros Hk.
  rewrite <- (Z.mod_pow2_bits_low (JS.ToInt32 b) 32 k) by lia.
  rewrite <- (Z.mod_pow2_bits_low b 32 k) by lia.
  f_equal. unfold JS.ToInt32.
  rewrite Zminus_mod_idemp_l. f_equal. lia.
Qed.

Lemma land_pow2_nonzero (x k : Z) :
  0 <= k -> negb (Z.land x (2 ^ k) =? 0) = Z.testbit x k.
Proof.
  intros Hk.
  assert (H : Z.land x (2 ^ k) = if Z.testbit x k then 2 ^ k else 0).
  { apply Z.bits_inj'. intros n Hn.
    rewrite Z.land_spec, Z.pow2_bits_eqb by lia.
    destruct (Z.eqb_spec k n) as [<- | Hne].
    - destruct (Z.testbit x k); simpl.
      + by rewrite Z.pow2_bits_eqb, Z.eqb_refl by lia.
      + by rewrite Z.bits_0.
    - rewrite andb_false_r. destruct (Z.testbit x k).
      + rewrite Z.pow2_bits_eqb by lia. symmetry. by apply Z.eqb_neq.
      + by rewrite Z.bits_0. }
  rewrite H. destruct (Z.testbit x k); [|done].
  assert (0 < 2 ^ k) by (apply Z.pow_pos_nonneg; lia).
  destruct (Z.eqb_spec (2 ^ k) 0); [lia|done].
Qed.

Lemma ToInt32_small (x : Z) : - 2 ^ 31 <= x < 2 ^ 31 -> JS.ToInt32 x = x.
Proof. intros H. unfold JS.ToInt32. rewrite Z.mod_small; lia. Qed.

Lemma pow2_mask_bounds (k : nat) :
  (k <= 30)%nat -> 0 < 2 ^ Z.of_nat k < 2 ^ 31.
Proof.
  intros Hk. split; [apply Z.pow_pos_nonneg; lia|].
  apply Z.pow_lt_mono_r; lia.
Qed.

Lemma mask_pulses_step (k fuel : nat) (b : Z) :
  (k <= 30)%nat ->
  mask_pulses (S fuel) (2 ^ Z.of_nat k) b =
  cons (if Z.testbit b (Z.of_nat k) then 2 else 1)
    <$> mask_pulses fuel (JS.sar (2 ^ Z.of_nat k) 1) b.
Proof.
  intros Hk. pose proof (pow2_mask_bounds k Hk) as Hmask.
  cbn [mask_pulses JS.ToBoolean].
  destruct (Z.eqb_spec (2 ^ Z.of_nat k) 0) as [|_]; [lia|].
  cbn [negb]. unfold JS.bitand.
  rewrite (ToInt32_small (2 ^ Z.of_nat k)) by lia.
  by rewrite land_pow2_nonzero, ToInt32_testbit by lia.
Qed.

(** The loop started on the mask [2 ^ k] tests bits [k] down to [0]. *)
Lemma mask_pulses_pow2 (k fuel : nat) (b : Z) :
  (k < fuel)%nat -> (k <= 30)%nat ->
  mask_pulses fuel (2 ^ Z.of_nat k) b =
  Some (map (fun i => if Z.testbit b i then 2 else 1) (bits_down k)).
Proof.
  revert fuel. induction k as [|k IH]; intros fuel Hfuel Hk;
    (destruct fuel as [|fuel]; [lia|]); rewrite mask_pulses_step by done.
  - change (JS.sar (2 ^ Z.of_nat 0) 1) with 0.
    by destruct fuel.
  - replace (JS.sar (2 ^ Z.of_nat (S k)) 1) with (2 ^ Z.of_nat k).
    + rewrite IH by lia. reflexivity.
    + pose proof (pow2_mask_bounds _ Hk) as Hmask.
      unfold JS.sar. rewrite ToInt32_small by lia.
      change (1 mod 32) with 1. rewrite Z.shiftr_div_pow2 by lia.
      rewrite Nat2Z.inj_succ, Z.pow_succ_r by lia.
      change (2 ^ 1) with 2. by rewrite Z.mul_comm, Z.div_mul.
Qed.

Lemma loop_pulses_bits (b : Z) :
  loop_pulses b =
  map (fun i => if Z.testbit b i then 2 else 1) [7; 6; 5; 4; 3; 2; 1; 0].
Proof.
  unfold loop_pulses, mask_fuel.
  change 0x80 with (2 ^ Z.of_nat 7).
  rewrite mask_pulses_pow2 by lia. reflexivity.
Qed.

Lemma low_byte_is_byte (b : Z) : is_byte (low_byte b).
Proof. apply mod_256_is_byte. Qed.

Lemma loop_pulses_low_byte (b : Z) :
  loop_pulses b = byte_pulses (low_byte b).
Proof.
  rewrite loop_pulses_bits. unfold byte_pulses, byte_symbols, low_byte.
  rewrite map_map. apply map_ext_in. intros i Hi.
  change 256 with (2 ^ 8). rewrite Z.mod_pow2_bits_low.
  - by destruct (Z.testbit b i).
  - simpl in Hi. lia.
Qed.

Lemma sum_bytes_low_bytes (data : list Z) :
  sum_bytes (map low_byte data) mod 256 = sum_bytes data mod 256.
Proof.
  induction data as [|b data IH]; [done|].
  cbn [map sum_bytes foldr]. fold (sum_bytes (map low_byte data)).
  fold (sum_bytes data).
  rewrite Z.add_mod, IH by lia. unfold low_byte.
  rewrite Z.mod_mod by lia. by rewrite <- Z.add_mod by lia.
Qed.

Lemma built_queue_low_bytes (data : list Z) :
  built_queue data = built_queue (map low_byte data).
Proof.
  unfold built_queue. rewrite sum_bytes_low_bytes. do 2 f_equal.
  induction data as [|b data IH]; [done|].
  cbn [map flat_map]. rewrite IH. f_equal.
  rewrite !loop_pulses_low_byte. unfold low_byte. by rewrite Z.mod_mod by lia.
Qed.

(** ** Sums that are exact in a double *)

Lemma abs_sum_nonneg (data : list Z) : 0 <= abs_sum data.
Proof. induction data as [|b data IH]; simpl; lia. Qed.

Lemma sum_bytes_abs_sum (data : list Z) :
  Z.abs (sum_bytes data) <= abs_sum data.
Proof.
  induction data as [|b data IH]; [done|].
  cbn [sum_bytes abs_sum foldr]. fold (sum_bytes data). fold (abs_sum data).
  lia.
Qed.

Lemma abs_sum_take (n : nat) (data : list Z) :
  abs_sum (take n data) <= abs_sum data.
Proof.
  revert n. induction data as [|b data IH]; intros [|n]; cbn [take];
    try done.
  - apply abs_sum_nonneg.
  - cbn [abs_sum foldr]. fold (abs_sum data). fold (abs_sum (take n data)).
    specialize (IH n). lia.
Qed.

(** Under [exact_sums] every value the variable [checksum] takes while the
    array is summed, and that value plus a byte, is within the range in
    which doubles add exactly. *)
Lemma exact_sums_running (data : list Z) (n : nat) :
  exact_sums data -> Z.abs (sum_bytes (take n data)) + 255 <= 2 ^ 53.
Proof.
  intros [_ H]. pose proof (sum_bytes_abs_sum (take n data)).
  pose proof (abs_sum_take n data). lia.
Qed.

Lemma abs_sum_permutation (d1 d2 : list Z) :
  d1 ≡ₚ d2 -> abs_sum d1 = abs_sum d2.
Proof.
  unfold abs_sum.
  induction 1 as [|b d1 d2 _ IH|b1 b2 d|d1 d2 d3 _ IH1 _ IH2];
    cbn [foldr]; [done|lia|lia|congruence].
Qed.

Lemma exact_sums_permutation (d1 d2 : list Z) :
  d1 ≡ₚ d2 -> exact_sums d1 -> exact_sums d2.
Proof.
  intros Hperm [Hlen Hsum]. split.
  - by rewrite <- (Permutation_length Hperm).
  - by rewrite <- (abs_sum_permutation d1 d2 Hperm).
Qed.

(** X1.  An array element outside 0-255 is sent as its low eight bits:
    for integers whose sums are exact in a double, the queue is the frame
    of the elements taken modulo 256, checksum byte included, so the call
    queues exactly what it queues for those bytes; and the variable
    [checksum] ends within the range of exact sums. *)
Theorem flashnetSend_sends_low_bytes
    (pulsewidth : Z) (data : list Z) (e : Element) :
  exact_sums data ->
  exists m : Machine,
    flashnetSend pulsewidth data e = Normal m /\
    queue m = map ratio (frame (map (fun b => b mod 256) data)) /\
    Z.abs (checksum m) <= 2 ^ 53 /\
    exists m' : Machine,
      flashnetSend pulsewidth (map (fun b => b mod 256) data) e = Normal m' /\
      queue m' = queue m.
Proof.
  intros [_ Hexact].
  eexists. split; [apply flashnetSend_run|]. fields.
  change (fun b => b mod 256) with low_byte.
  split; [|split].
  - rewrite built_queue_low_bytes. apply built_queue_frame.
    apply Forall_forall. intros b (b' & -> & _)%list_elem_of_fmap.
    apply low_byte_is_byte.
  - pose proof (sum_bytes_abs_sum data).
    pose proof (mod_256_is_byte (sum_bytes data)) as Hbyte.
    unfold is_byte in Hbyte. lia.
  - eexists. split; [apply flashnetSend_run|]. fields.
    by rewrite <- built_queue_low_bytes.
Qed.

Lemma exact_sums_sample : exact_sums [0x148; -1; 1000].
Proof. split; vm_compute; [reflexivity|discriminate]. Defined.

Lemma flashnetSend_sends_low_bytes_witness :
  exact_sums [0x148; -1; 1000] /\
  exists m : Machine,
    flashnetSend 80 [0x148; -1; 1000] ∅ = Normal m /\
    queue m = map ratio (frame [0x48; 0xFF; 0xE8]) /\
    Z.abs (checksum m) <= 2 ^ 53 /\
    exists m' : Machine,
      flashnetSend 80 [0x48; 0xFF; 0xE8] ∅ = Normal m' /\
      queue m' = queue m.
Proof.
  split; [exact exact_sums_sample|].
  exact (flashnetSend_sends_low_bytes 80 [0x148; -1; 1000] ∅
           exact_sums_sample).
Defined.

(** ** Framing *)

Lemma flat_map_loop_pulses_widths (data : list Z) :
  Forall (fun w => w = 1 \/ w = 2) (flat_map loop_pulses data).
Proof.
  induction data as [|b data IH]; [constructor|].
  cbn [flat_map]. apply Forall_app. split; [apply loop_pulses_widths|done].
Qed.

(** X2.  Whatever the data, the start and end markers are unambiguous:
    the queue is 14 pulses of width 1, the width 3, then [8 * (n + 1)]
    pulses of width 1 or 2, then the width 4; so width 3 occurs at index
    14 and nowhere else, and width 4 at the last index and nowhere else. *)
Theorem start_and_end_markers_are_unique
    (pulsewidth : Z) (data : list Z) (e : Element) :
  exists (m : Machine) (body : list Z),
    flashnetSend pulsewidth data e = Normal m /\
    queue m = replicate 14 1 ++ [3] ++ body ++ [4] /\
    length body = (8 * (length data + 1))%nat /\
    Forall (fun w => w = 1 \/ w = 2) body /\
    (forall i : nat, queue m !! i = Some 3 <-> i = 14%nat) /\
    (forall i : nat,
       queue m !! i = Some 4 <-> i = (8 * length data + 23)%nat).
Proof.
  eexists _, (flat_map loop_pulses data ++
              loop_pulses (sum_bytes data mod 256)).
  split; [apply flashnetSend_run|]. fields.
  set (body := flat_map loop_pulses data ++ _).
  assert (Hq : built_queue data = replicate 14 1 ++ [3] ++ body ++ [4]).
  { unfold built_queue, body. by rewrite <- !app_assoc. }
  assert (Hlen : length body = (8 * (length data + 1))%nat).
  { unfold body.
    rewrite length_app, flat_map_loop_pulses_length, loop_pulses_length. lia. }
  assert (Hbody : Forall (fun w => w = 1 \/ w = 2) body).
  { apply Forall_app. split;
      [apply flat_map_loop_pulses_widths|apply loop_pulses_widths]. }
  assert (Hin : forall j w, body !! j = Some w -> w = 1 \/ w = 2).
  { intros j w Hj. exact (Forall_lookup_1 _ _ _ _ Hbody Hj). }
  split; [exact Hq|]. split; [exact Hlen|]. split; [exact Hbody|].
  rewrite Hq. split; intros i.
  - rewrite lookup_app_Some, lookup_replicate, lookup_app_Some.
    rewrite list_lookup_singleton_Some, lookup_app_Some.
    rewrite list_lookup_singleton_Some, length_replicate. simpl length.
    split.
    + intros [[? _] | (Hi & [[? _] | (? & [Hj | (_ &  _ & ?)])])];
        [done|lia| |done]. by destruct (Hin _ _ Hj).
    + intros ->. right. split; [lia|]. left. split; [lia|done].
  - rewrite lookup_app_Some, lookup_replicate, lookup_app_Some.
    rewrite list_lookup_singleton_Some, lookup_app_Some.
    rewrite list_lookup_singleton_Some, length_replicate. simpl length.
    split.
    + intros [[? _] | (Hi & [[_ ?] | (? & [Hj | (? & ? & _)])])];
        [done|done| |lia]. by destruct (Hin _ _ Hj).
    + intros ->. right. split; [lia|]. right. split; [lia|].
      right. split; [lia|]. split; [lia|done].
Qed.

(** ** Distinct payloads, distinct frames *)

Lemma byte_pulses_inj (b1 b2 : Z) :
  is_byte b1 -> is_byte b2 -> byte_pulses b1 = byte_pulses b2 -> b1 = b2.
Proof.
  intros H1 H2 Heq. apply (f_equal (byte_of_pulses 0)) in Heq.
  rewrite !byte_of_byte_pulses in Heq by done. by injection Heq.
Qed.

Lemma flat_map_byte_pulses_inj (d1 d2 : list Z) (r1 r2 : list Z) :
  Forall is_byte d1 -> Forall is_byte d2 -> length d1 = length d2 ->
  flat_map byte_pulses d1 ++ r1 = flat_map byte_pulses d2 ++ r2 ->
  d1 = d2.
Proof.
  intros H1. revert d2. induction H1 as [|b1 d1 Hb1 _ IH];
    intros [|b2 d2] H2 Hlen Heq; try done.
  apply Forall_cons in H2 as [Hb2 H2]. cbn [flat_map] in Heq.
  rewrite <- !app_assoc in Heq.
  apply app_inj_1 in Heq as [Hb Hrest]; [|done].
  f_equal; [by apply byte_pulses_inj|].
  apply IH; [done|by injection Hlen|done].
Qed.

Lemma built_queue_inj (d1 d2 : list Z) :
  Forall is_byte d1 -> Forall is_byte d2 ->
  built_queue d1 = built_queue d2 -> d1 = d2.
Proof.
  intros H1 H2 Heq.
  assert (Hlen : length d1 = length d2).
  { apply (f_equal length) in Heq. rewrite !built_queue_length in Heq. lia. }
  rewrite !built_queue_frame, !map_ratio_frame in Heq by done.
  apply app_inv_head in Heq. cbn [app] in Heq. injection Heq as Heq.
  by apply flat_map_byte_pulses_inj in Heq.
Qed.

(** X3.  The queue determines the payload.  Two different arrays of bytes
    never give the same queue; and for arrays of integers whose sums are
    exact in a double, two calls build the same queue exactly when the
    arrays agree modulo 256 element by element. *)
Theorem queue_determines_payload
    (pulsewidth1 pulsewidth2 : Z) (d1 d2 : list Z) (e1 e2 : Element) :
  exists m1 m2 : Machine,
    flashnetSend pulsewidth1 d1 e1 = Normal m1 /\
    flashnetSend pulsewidth2 d2 e2 = Normal m2 /\
    (exact_sums d1 -> exact_sums d2 ->
     (queue m1 = queue m2 <->
      map (fun b => b mod 256) d1 = map (fun b => b mod 256) d2)) /\
    (Forall is_byte d1 -> Forall is_byte d2 ->
     queue m1 = queue m2 -> d1 = d2).
Proof.
  eexists _, _. split; [apply flashnetSend_run|].
  split; [apply flashnetSend_run|]. fields.
  change (fun b => b mod 256) with low_byte.
  assert (Hlow : forall d, Forall is_byte (map low_byte d)).
  { intros d. apply Forall_forall. intros b (b' & -> & _)%list_elem_of_fmap.
    apply low_byte_is_byte. }
  split; [intros _ _; split|].
  - rewrite (built_queue_low_bytes d1), (built_queue_low_bytes d2).
    by apply built_queue_inj.
  - intros Heq.
    by rewrite (built_queue_low_bytes d1), (built_queue_low_bytes d2), Heq.
  - apply built_queue_inj.
Qed.

Lemma exact_sums_pair : exact_sums [0x148; -1] /\ exact_sums [0x48; 0xFF].
Proof. split; split; vm_compute; (reflexivity || discriminate). Defined.

Lemma queue_determines_payload_witness :
  exact_sums [0x148; -1] /\ exact_sums [0x48; 0xFF] /\
  exists m1 m2 : Machine,
    flashnetSend 80 [0x148; -1] ∅ = Normal m1 /\
    flashnetSend 60 [0x48; 0xFF] ∅ = Normal m2 /\
    queue m1 = queue m2.
Proof.
  destruct exact_sums_pair as [H1 H2].
  split; [exact H1|]. split; [exact H2|].
  destruct (queue_determines_payload 80 60 [0x148; -1] [0x48; 0xFF] ∅ ∅)
    as (m1 & m2 & Hm1 & Hm2 & Hiff & _).
  exists m1, m2. split; [exact Hm1|]. split; [exact Hm2|].
  apply (Hiff H1 H2). reflexivity.
Defined.

(** ** What the checksum does not see *)

Lemma sum_bytes_permutation (d1 d2 : list Z) :
  d1 ≡ₚ d2 -> sum_bytes d1 = sum_bytes d2.
Proof.
  unfold sum_bytes.
  induction 1 as [|b d1 d2 _ IH|b1 b2 d|d1 d2 d3 _ IH1 _ IH2];
    cbn [foldr]; [done|lia|lia|congruence].
Qed.

(** X4.  The checksum is blind to the order of the payload: if one array
    is a rearrangement of another and its sums are exact in a double, so
    are the sums of the other, and both calls end with the same checksum
    and queue the same eight checksum pulses before the end pulse. *)
Theorem checksum_ignores_order
    (pulsewidth : Z) (d1 d2 : list Z) (e : Element) :
  d1 ≡ₚ d2 -> exact_sums d1 ->
  exact_sums d2 /\
  exists (m1 m2 : Machine) (sent1 sent2 bits : list Z),
    flashnetSend pulsewidth d1 e = Normal m1 /\
    flashnetSend pulsewidth d2 e = Normal m2 /\
    checksum m1 = checksum m2 /\
    queue m1 = sent1 ++ bits ++ [4] /\
    queue m2 = sent2 ++ bits ++ [4] /\
    length bits = 8%nat.
Proof.
  intros Hperm Hexact. split; [by eapply exact_sums_permutation|].
  apply sum_bytes_permutation in Hperm.
  eexists _, _, _, _, (loop_pulses (sum_bytes d1 mod 256)).
  split; [apply flashnetSend_run|]. split; [apply flashnetSend_run|]. fields.
  split; [by rewrite Hperm|]. unfold built_queue. rewrite <- Hperm.
  split; [by rewrite !app_assoc|]. split; [by rewrite !app_assoc|].
  apply loop_pulses_length.
Qed.

Lemma checksum_ignores_order_witness :
  [1; 2; 255] ≡ₚ [255; 1; 2] /\ exact_sums [1; 2; 255] /\
  exact_sums [255; 1; 2] /\
  exists (m1 m2 : Machine) (sent1 sent2 bits : list Z),
    flashnetSend 80 [1; 2; 255] ∅ = Normal m1 /\
    flashnetSend 80 [255; 1; 2] ∅ = Normal m2 /\
    checksum m1 = checksum m2 /\
    queue m1 = sent1 ++ bits ++ [4] /\
    queue m2 = sent2 ++ bits ++ [4] /\
    length bits = 8%nat.
Proof.
  assert (H : [1; 2; 255] ≡ₚ [255; 1; 2]).
  { change [255; 1; 2] with ([255] ++ [1; 2]).
    change [1; 2; 255] with ([1; 2] ++ [255]).
    apply Permutation_app_comm. }
  assert (Hexact : exact_sums [1; 2; 255])
    by (split; vm_compute; [reflexivity|discriminate]).
  split; [exact H|]. split; [exact Hexact|].
  exact (checksum_ignores_order 80 [1; 2; 255] [255; 1; 2] ∅ H Hexact).
Defined.

(** ** How long a transmission takes *)

Lemma total_width_bounds (q : list Z) :
  Forall (fun w => w = 1 \/ w = 2) q ->
  Z.of_nat (length q) <= total_width q <= 2 * Z.of_nat (length q).
Proof.
  induction 1 as [|w q Hw _ IH]; [done|].
  cbn [length total_width foldr]. fold (total_width q). lia.
Qed.

Lemma built_queue_total_width (data : list Z) :
  8 * Z.of_nat (length data) + 29 <= total_width (built_queue data)
    <= 16 * Z.of_nat (length data) + 37.
Proof.
  unfold built_queue. rewrite !total_width_app.
  pose proof (total_width_bounds _ (flat_map_loop_pulses_widths data)) as H1.
  pose proof (total_width_bounds _
                (loop_pulses_widths (sum_bytes data mod 256))) as H2.
  rewrite flat_map_loop_pulses_length in H1.
  rewrite loop_pulses_length in H2.
  change (total_width [1;1;1;1;1;1;1;1;1;1;1;1;1;1;3]) with 17.
  change (total_width [4]) with 4. lia.
Qed.

(** Once more ticks have passed than the queue asked for, the interval is
    cleared and the queue empty. *)
Lemma iter_after_tick_done (t : nat) (m : Machine) (p : Z) :
  timer m = Some p -> wf_queue (queue m) ->
  total_width (queue m) < Z.of_nat t ->
  timer (Nat.iter t after_tick m) = None /\
  queue (Nat.iter t after_tick m) = [].
Proof.
  intros Ht Hwf Hlt.
  destruct (wf_queue_positive _ Hwf) as [Hpos _].
  set (s := Z.to_nat (total_width (queue m))).
  replace t with ((t - S s) + S s)%nat by lia.
  rewrite Nat.iter_add, Nat.iter_succ.
  destruct (iter_after_tick_live s m p Ht Hwf) as (Ht' & Hwf' & Hsum); [lia|].
  destruct (wf_queue_positive _ Hwf') as [_ Hnil].
  rewrite (after_tick_empty _ p Ht') by (apply Hnil; lia).
  rewrite iter_after_tick_cleared by done. fields.
  split; [done|]. apply Hnil. lia.
Qed.

(** X5.  A transmission of [n] numbers lasts between [8 n + 30] and
    [16 n + 38] ticks: the queued widths sum to a value between
    [8 n + 29] and [16 n + 37], the interval is still registered after
    each of the first [8 n + 29] ticks, and from tick [16 n + 38] on it is
    cleared and the queue is empty. *)
Theorem transmission_time_bounds
    (pulsewidth : Z) (data : list Z) (e : Element) :
  exists m0 : Machine,
    flashnetSend pulsewidth data e = Normal m0 /\
    8 * Z.of_nat (length data) + 29 <= total_width (queue m0)
      <= 16 * Z.of_nat (length data) + 37 /\
    (forall t : nat,
       (t <= 8 * length data + 29)%nat ->
       exists m : Machine,
         ticks t m0 = Normal m /\ timer m = Some pulsewidth) /\
    (forall t : nat,
       (16 * length data + 38 <= t)%nat ->
       exists m : Machine,
         ticks t m0 = Normal m /\ timer m = None /\ queue m = []).
Proof.
  eexists. split; [apply flashnetSend_run|]. fields.
  pose proof (built_queue_total_width data) as Hsum.
  pose proof (wf_built_queue data) as Hwf.
  split; [exact Hsum|]. split; intros t Ht; eexists;
    (split; [apply ticks_after|]).
  - eapply iter_after_tick_live; [done|exact Hwf|]. fields. lia.
  - eapply iter_after_tick_done; [done|exact Hwf|]. fields. lia.
Qed.

(** ** The machine at rest *)

Lemma tracking_start (c : Z) (q : list Z) (e : Element) (v : JS.value)
    (t : option Z) :
  tracking e c (length q) (mkMachine v c q e [] t).
Proof. split; [done|]. split; [done|]. fields. lia. Qed.

Lemma tracking_after_tick (e : Element) (c : Z) (L : nat) (m : Machine) :
  tracking e c L m -> tracking e c L (after_tick m).
Proof.
  intros (Hc & He & Hs). unfold after_tick.
  destruct (timer m) as [p|]; [|done].
  destruct (queue m) as [|w rest] eqn:Hq.
  - split; [done|]. fields. rewrite last_snoc, He. split; [|by rewrite Hq].
    destruct (last (painted m)); [by rewrite insert_insert_eq|done].
  - destruct (w - 1 <=? 0).
    + split; [done|]. fields. rewrite last_snoc, He. split; [|by eexists].
      destruct (last (painted m)); [by rewrite insert_insert_eq|done].
    + split; [done|]. split; [done|]. fields. cbn [length] in *. done.
Qed.

Lemma tracking_iter (t : nat) (e : Element) (c : Z) (L : nat) (m : Machine) :
  tracking e c L m -> tracking e c L (Nat.iter t after_tick m).
Proof.
  intros H. induction t as [|t IH]; [done|].
  simpl. by apply tracking_after_tick.
Qed.

(** X6.  Once the queue has drained and one more tick has passed, the
    machine rests in a state that depends on the payload through its
    length and checksum only, and further ticks leave it there: queue
    empty, interval cleared, light state [false], the element as it was
    before the call but for its background colour "#ccc", and exactly
    [8 n + 25] colour writes made, the alternation of [8 n + 24] colours
    followed by "#ccc". *)
Theorem machine_at_rest
    (pulsewidth : Z) (data : list Z) (e : Element) (extra : nat) :
  exists m0 : Machine,
    flashnetSend pulsewidth data e = Normal m0 /\
    ticks (S (Z.to_nat (total_width (queue m0))) + extra) m0 =
      Normal
        (mkMachine (JS.VBool false) (checksum m0) []
           (<[backgroundColor := "#ccc"]> e)
           (map (fun i => if Nat.odd i then "#888" else "#eee")
                (seq 1 (8 * length data + 24)) ++ ["#ccc"])
           None).
Proof.
  eexists. split; [apply flashnetSend_run|]. fields.
  rewrite ticks_after. f_equal.
  set (c := sum_bytes data + sum_bytes data mod 256).
  set (m0 := mkMachine _ c _ _ _ _).
  set (t := (S _ + extra)%nat).
  pose proof (wf_built_queue data) as Hwf.
  destruct (wf_queue_positive _ Hwf) as [Hpos _].
  destruct (iter_after_tick_done t m0 pulsewidth eq_refl Hwf) as [Ht Hq].
  { unfold m0, t. fields. lia. }
  destruct (sending_iter t _ _ _
              (sending_start c (built_queue data) e pulsewidth))
    as (k & Hlen & Hstate & Hpainted & _ & _).
  destruct (tracking_iter t _ _ _ _
              (tracking_start c (built_queue data) e (JS.VNum 0)
                 (Some pulsewidth)))
    as (Hc & He & Hs).
  fold m0 in Hlen, Hstate, Hpainted, Hc, He, Hs.
  rewrite Hq in Hlen, Hs. rewrite Ht in Hpainted.
  cbn [closing] in Hpainted. cbn [length] in Hlen, Hs.
  rewrite built_queue_length in Hlen, Hs.
  assert (k = (8 * length data + 24)%nat) as -> by lia.
  destruct Hs as [b Hb]; [lia|].
  rewrite Hb in Hstate. cbn [JS.ToBoolean] in Hstate.
  replace (8 * length data + 24)%nat
    with (2 * (4 * length data + 12))%nat in Hstate by lia.
  rewrite Nat.odd_even in Hstate. subst b.
  rewrite Hpainted, last_snoc in He.
  destruct (Nat.iter t after_tick m0) as [st ck qu el pa ti].
  cbn [state checksum queue elem painted timer] in *.
  by subst.
Qed.

(** ** What an observer sees *)

Lemma display_succ (n : nat) (m : Machine) :
  display (S n) m =
  elem (after_tick m) !! backgroundColor :: display n (after_tick m).
Proof. cbn [display]. by rewrite tick_after. Qed.

Lemma display_add (a b : nat) (m : Machine) :
  display (a + b) m = display a m ++ display b (Nat.iter a after_tick m).
Proof.
  revert m. induction a as [|a IH]; intros m; [done|].
  change (S a + b)%nat with (S (a + b)).
  rewrite !display_succ, IH, Nat.iter_swap. reflexivity.
Qed.

(** While the head pulse lasts the colour on show does not change. *)
Lemma display_hold (t : nat) (m : Machine) (p w : Z) (rest : list Z) :
  timer m = Some p -> queue m = w :: rest -> Z.of_nat t < w ->
  display t m = replicate t (elem m !! backgroundColor).
Proof.
  revert m w. induction t as [|t IH]; intros m w Ht Hq Hlt; [done|].
  rewrite display_succ.
  assert (Hstep : after_tick m = set_queue (w - 1 :: rest) m).
  { unfold after_tick. rewrite Ht, Hq.
    by destruct (Z.leb_spec (w - 1) 0); [lia|]. }
  rewrite Hstep. cbn [replicate]. f_equal.
  apply (IH (set_queue (w - 1 :: rest) m) (w - 1)); [done|done|lia].
Qed.

(** The ticks of one pulse: the old colour until the pulse is over, then
    the colour of the flipped light state. *)
Lemma display_pulse (m : Machine) (p w : Z) (rest : list Z) :
  timer m = Some p -> queue m = w :: rest -> 1 <= w ->
  display (Z.to_nat w) m =
  replicate (Z.to_nat (w - 1)) (elem m !! backgroundColor) ++
  [Some (light_colour (JS.not (state m)))].
Proof.
  intros Ht Hq Hw.
  replace (Z.to_nat w) with (Z.to_nat (w - 1) + 1)%nat by lia.
  rewrite display_add, (display_hold _ m p w rest) by (done || lia).
  f_equal. rewrite (hold_ticks m p w rest) by (done || lia).
  rewrite display_succ. unfold after_tick. fields. rewrite Ht.
  destruct (Z.leb_spec (w - Z.of_nat (Z.to_nat (w - 1)) - 1) 0); [|lia].
  fields. by rewrite lookup_insert_eq.
Qed.

Lemma display_queue (rest : list Z) :
  forall (w : Z) (m : Machine) (p : Z) (k : nat),
  timer m = Some p -> queue m = w :: rest -> wf_queue (w :: rest) ->
  JS.ToBoolean (state m) = Nat.odd k ->
  display (Z.to_nat (total_width (w :: rest)) + 1) m =
  replicate (Z.to_nat (w - 1)) (elem m !! backgroundColor) ++
  shown_runs (rest ++ [1])
             (map boundary_colour (seq (S k) (S (length rest)))) ++
  [Some "#ccc"].
Proof.
  induction rest as [|w2 rest IH]; intros w m p k Ht Hq Hwf Hstate;
    apply Forall_cons in Hwf as [Hw Hwf];
    destruct (light_colour_flip _ _ Hstate) as [Hs Hc].
  - change (total_width [w]) with (w + 0). rewrite Z.add_0_r.
    rewrite display_add, (display_pulse m p w []) by done.
    rewrite (pop_tick m p w []) by done.
    rewrite display_succ, (after_tick_empty _ p) by done. fields.
    rewrite lookup_insert_eq, Hc, <- app_assoc. reflexivity.
  - destruct (wf_queue_positive _ Hwf) as [Hpos _].
    change (total_width (w :: w2 :: rest))
      with (w + total_width (w2 :: rest)).
    replace (Z.to_nat (w + total_width (w2 :: rest)) + 1)%nat
      with (Z.to_nat w + (Z.to_nat (total_width (w2 :: rest)) + 1))%nat
      by lia.
    rewrite display_add, (display_pulse m p w (w2 :: rest)) by done.
    rewrite (pop_tick m p w (w2 :: rest)) by done.
    rewrite (IH w2 (pulse_done (w2 :: rest) m) p (S k)) by done.
    fields. rewrite lookup_insert_eq, Hc, <- !app_assoc. f_equal.
    cbn [app length seq map shown_runs]. unfold shown_for at 1.
    apply Forall_cons in Hwf as [Hw2 _].
    replace (Z.to_nat w2) with (S (Z.to_nat (w2 - 1))) by lia.
    cbn [replicate]. by rewrite <- !app_assoc.
Qed.

Lemma display_built_queue (pulsewidth c : Z) (data : list Z) (e : Element) :
  display (S (Z.to_nat (total_width (built_queue data))))
          (mkMachine (JS.VNum 0) c (built_queue data) e [] (Some pulsewidth)) =
  shown_runs (tail (built_queue data) ++ [1])
             (alternation (length (built_queue data))) ++
  [Some "#ccc"].
Proof.
  pose proof (wf_built_queue data) as Hwf.
  set (m0 := mkMachine _ _ _ _ _ _).
  assert (Hq : queue m0 = 1 :: tail (built_queue data)) by done.
  change (built_queue data) with (1 :: tail (built_queue data)) in Hwf at 1.
  rewrite <- Nat.add_1_r.
  change (built_queue data) with (1 :: tail (built_queue data)) at 1 3.
  rewrite (display_queue _ 1 m0 pulsewidth 0 eq_refl Hq Hwf eq_refl).
  reflexivity.
Qed.

(** X7.  What the element shows, tick by tick, over a whole transmission:
    colour number [k] of the alternation ("#888" for odd [k], "#eee" for
    even [k]) is on show for as many ticks as the width of queue entry
    [k + 1], the last colour for one tick, and then the neutral colour
    appears.  The first queue entry is used up by the first tick, before
    any colour has been shown. *)
Theorem displayed_pulse_train
    (pulsewidth : Z) (data : list Z) (e : Element) :
  exists m0 : Machine,
    flashnetSend pulsewidth data e = Normal m0 /\
    display (S (Z.to_nat (total_width (queue m0)))) m0 =
      shown_runs
        (tail (queue m0) ++ [1])
        (map (fun k => if Nat.odd k then "#888" else "#eee")
             (seq 1 (length (queue m0)))) ++
      [Some "#ccc"].
Proof.
  eexists. split; [apply flashnetSend_run|]. fields.
  apply display_built_queue.
Qed.

(** ** The empty payload *)

(** X8.  An empty array is not refused: a complete frame is queued, 14
    sync pulses, the start pulse, a checksum byte of eight 0-bits and the
    end pulse, and it takes exactly 30 ticks, on which the element shows
    13 unit pulses, the start pulse for 3 ticks, the eight unit pulses of
    the checksum, the end pulse for 4 ticks, one closing tick of "#eee" and
    then the neutral colour. *)
Theorem empty_payload_is_sent (pulsewidth : Z) (e : Element) :
  exists m0 : Machine,
    flashnetSend pulsewidth [] e = Normal m0 /\
    queue m0 = replicate 14 1 ++ [3] ++ replicate 8 1 ++ [4] /\
    (exists m : Machine,
       ticks 29 m0 = Normal m /\ timer m = Some pulsewidth) /\
    (exists m : Machine, ticks 30 m0 = Normal m /\ timer m = None) /\
    display 30 m0 =
      shown_runs
        ([1;1;1;1;1;1;1;1;1;1;1;1;1] ++ [3] ++ [1;1;1;1;1;1;1;1] ++ [4; 1])
        (["#888";"#eee";"#888";"#eee";"#888";"#eee";"#888";"#eee";"#888";
          "#eee";"#888";"#eee";"#888"] ++ ["#eee"] ++
         ["#888";"#eee";"#888";"#eee";"#888";"#eee";"#888";"#eee"] ++
         ["#888"; "#eee"]) ++
      [Some "#ccc"].
Proof.
  eexists. split; [apply flashnetSend_run|]. fields.
  assert (Hq : built_queue [] = replicate 14 1 ++ [3] ++ replicate 8 1 ++ [4])
    by (vm_compute; reflexivity).
  pose proof (wf_built_queue []) as Hwf.
  split; [exact Hq|]. split; [|split].
  - eexists. split; [apply ticks_after|].
    eapply (iter_after_tick_live 29); [done|exact Hwf|].
    fields. rewrite Hq. vm_compute. discriminate.
  - eexists. split; [apply ticks_after|].
    eapply (iter_after_tick_done 30); [done|exact Hwf|].
    fields. rewrite Hq. vm_compute. reflexivity.
  - pose proof (display_built_queue pulsewidth
                  (sum_bytes [] + sum_bytes [] mod 256) [] e) as H.
    rewrite Hq in H. exact H.
Qed.

(** ** What the checksum does see *)

Lemma sum_bytes_app (d1 d2 : list Z) :
  sum_bytes (d1 ++ d2) = sum_bytes d1 + sum_bytes d2.
Proof. apply total_width_app. Qed.

(** X9.  Changing one element of the array to a value with a different
    low byte always changes the checksum byte, as long as the sums of both
    arrays are exact in a double: the eight checksum pulses queued before
    the end pulse differ between the two calls. *)
Theorem checksum_detects_single_change
    (pulsewidth : Z) (before after : list Z) (b b' : Z) (e : Element) :
  b mod 256 <> b' mod 256 ->
  exact_sums (before ++ b :: after) -> exact_sums (before ++ b' :: after) ->
  exists (m1 m2 : Machine) (sent1 sent2 bits1 bits2 : list Z),
    flashnetSend pulsewidth (before ++ b :: after) e = Normal m1 /\
    flashnetSend pulsewidth (before ++ b' :: after) e = Normal m2 /\
    queue m1 = sent1 ++ bits1 ++ [4] /\
    queue m2 = sent2 ++ bits2 ++ [4] /\
    length bits1 = 8%nat /\ length bits2 = 8%nat /\
    bits1 <> bits2.
Proof.
  intros Hne _ _.
  eexists _, _, _, _,
    (loop_pulses (sum_bytes (before ++ b :: after) mod 256)),
    (loop_pulses (sum_bytes (before ++ b' :: after) mod 256)).
  split; [apply flashnetSend_run|]. split; [apply flashnetSend_run|]. fields.
  unfold built_queue.
  split; [by rewrite !app_assoc|]. split; [by rewrite !app_assoc|].
  split; [apply loop_pulses_length|]. split; [apply loop_pulses_length|].
  rewrite !loop_pulses_byte by apply mod_256_is_byte.
  intros Heq. apply byte_pulses_inj in Heq; try apply mod_256_is_byte.
  rewrite !sum_bytes_app in Heq. cbn [sum_bytes foldr] in Heq.
  fold (sum_bytes after) in Heq. apply Hne.
  revert Heq. generalize (sum_bytes before) (sum_bytes after). intros x y.
  Z.div_mod_to_equations. lia.
Qed.

Lemma checksum_detects_single_change_witness :
  0x48 mod 256 <> 0x49 mod 256 /\
  exact_sums ([] ++ 0x48 :: [0x65]) /\ exact_sums ([] ++ 0x49 :: [0x65]) /\
  exists (m1 m2 : Machine) (sent1 sent2 bits1 bits2 : list Z),
    flashnetSend 80 ([] ++ 0x48 :: [0x65]) ∅ = Normal m1 /\
    flashnetSend 80 ([] ++ 0x49 :: [0x65]) ∅ = Normal m2 /\
    queue m1 = sent1 ++ bits1 ++ [4] /\
    queue m2 = sent2 ++ bits2 ++ [4] /\
    length bits1 = 8%nat /\ length bits2 = 8%nat /\
    bits1 <> bits2.
Proof.
  assert (H : 0x48 mod 256 <> 0x49 mod 256) by (vm_compute; discriminate).
  assert (H1 : exact_sums ([] ++ 0x48 :: [0x65]))
    by (split; vm_compute; [reflexivity|discriminate]).
  assert (H2 : exact_sums ([] ++ 0x49 :: [0x65]))
    by (split; vm_compute; [reflexivity|discriminate]).
  split; [exact H|]. split; [exact H1|]. split; [exact H2|].
  exact (checksum_detects_single_change 80 [] [0x65] 0x48 0x49 ∅ H H1 H2).
Defined.
